(** * ftl: the [maybe] container and the algebra instances of [std::tuple]

    A shallow embedding of [include/ftl/maybe.h] and [include/ftl/tuple.h].

    - [maybe<A>] is the pair of its two private members: the aligned storage
      cell [val] and the flag [isValid].  The cell either holds a constructed
      [A] or raw bytes.
    - A C++ call ends in one of three ways: it returns, it throws, or it has
      undefined behaviour (an object is read out of storage that holds none).
    - Member functions that only read [this] are functions of the object;
      the assignment operators compare and mutate two objects through their
      addresses, so they run on a heap of objects.
    - [std::tuple<Ts...>] is a heterogeneous list indexed by its type pack. *)

From stdpp Require Import base tactics option hlist gmap strings.
From Stdlib Require Import ZArith.

Open Scope string_scope.

(* [tlist] and [hlist] are universe polymorphic: keep the example tuples at
   the level of the functions that take them. *)
Unset Universe Minimization ToSet.

(** ** Outcomes of a call *)

Inductive exception : Type :=
  | logic_error (what_arg : string)   (* std::logic_error *)
  | thrown (tag : nat).               (* whatever the payload type's own code throws *)

Inductive result (X : Type) : Type :=
  | Ret (x : X)
  | Throw (e : exception)
  | Undefined.
Arguments Ret {X} x.
Arguments Throw {X} e.
Arguments Undefined {X}.

#[global] Instance result_ret : MRet result := @Ret.
#[global] Instance result_bind : MBind result := λ X Y k r,
  match r with
  | Ret x => k x
  | Throw e => Throw e
  | Undefined => Undefined
  end.

(** State passing with exceptions: the state survives a throw. *)
Definition ST (Σ X : Type) : Type := Σ → result X * Σ.

#[global] Instance ST_ret Σ : MRet (ST Σ) := λ X x σ, (Ret x, σ).
#[global] Instance ST_bind Σ : MBind (ST Σ) := λ X Y k c σ,
  match c σ with
  | (Ret x, σ') => k x σ'
  | (Throw e, σ') => (Throw e, σ')
  | (Undefined, σ') => (Undefined, σ')
  end.

Definition lift {Σ X} (r : result X) : ST Σ X := λ σ, (r, σ).

(** ** The payload type

    [A]'s copy and move constructors, as far as [maybe] sees them: they build
    a new [A] from an existing one, or throw. *)
Class Constructible (A : Type) : Type := {
  copy_construct : A → result A;
  move_construct : A → result A
}.

(** [std::is_nothrow_copy_constructible] and
    [std::is_nothrow_move_constructible], with the constructed object equal
    to its source. *)
Class NoThrow (A : Type) `{Constructible A} : Prop := {
  copy_nothrow : ∀ a : A, copy_construct a = Ret a;
  move_nothrow : ∀ a : A, move_construct a = Ret a
}.

(** ** maybe<A> *)

Inductive storage (A : Type) : Type :=
  | raw
  | live (a : A).
Arguments raw {A}.
Arguments live {A} a.

Record maybe (A : Type) : Type := Maybe { val : storage A; isValid : bool }.
Arguments Maybe {A} val isValid.
Arguments val {A} m.
Arguments isValid {A} m.

Definition addr : Type := positive.

(** [A]'s constructors from the storage cell itself.  The assignment
    operators of [maybe] hand [m.val], the cell and not the [A] in it, to
    [value_type(...)]: the copy assignment as a [const] lvalue, the move
    assignment as an rvalue, which the constructor may also write to (the
    second component is the cell as it leaves it).  A payload type without
    such constructors, an [int] or a [std::string], has no instance: the
    operators do not instantiate for it. *)
Class CellConstructible (A : Type) : Type := {
  construct_from_cell : storage A → result A;
  construct_from_cell_rv : storage A → result A * storage A
}.

(** [reinterpret_cast<A&>(val)], read as an [A]. *)
Definition reinterpret_cast {A} (s : storage A) : result A :=
  match s with
  | live a => Ret a
  | raw => Undefined
  end.

(** Invariant I1: a set flag comes with a constructed object. *)
Definition wf {A} (m : maybe A) : Prop :=
  isValid m = true → ∃ a, val m = live a.

(** Two objects that no member function tells apart: the flags agree and,
    when set, so do the cells (the cell of an absent maybe is never read). *)
#[global] Instance maybe_equiv {A} : Equiv (maybe A) := λ m1 m2,
  isValid m1 = isValid m2 ∧ (isValid m1 = true → val m1 = val m2).

Section maybe.
Context {A : Type} `{Constructible A}.

(** [constexpr maybe() noexcept {}], also [maybe::nothing()]. *)
Definition nothing : maybe A := Maybe raw false.

(** [maybe(const maybe& m)] *)
Definition copy_ctor (m : maybe A) : result (maybe A) :=
  let isValid' := isValid m in
  if isValid' then
    a ← reinterpret_cast (val m);
    a' ← copy_construct a;
    Ret (Maybe (live a') isValid')
  else Ret (Maybe raw isValid').

(** [maybe(maybe&& m)]: the new object and [m] afterwards. *)
Definition move_ctor (m : maybe A) : result (maybe A * maybe A) :=
  let isValid' := isValid m in
  if isValid' then
    a ← reinterpret_cast (val m);
    a' ← move_construct a;
    Ret (Maybe (live a') isValid', Maybe (val m) false)
  else Ret (Maybe raw isValid', m).

(** [explicit maybe(const value_type& v)] *)
Definition maybe_of_copy (v : A) : result (maybe A) :=
  a' ← copy_construct v; Ret (Maybe (live a') true).

(** [explicit maybe(value_type&& v)] *)
Definition maybe_of_move (v : A) : result (maybe A) :=
  a' ← move_construct v; Ret (Maybe (live a') true).

Definition isNothing (this : maybe A) : bool := negb (isValid this).
Definition isValue (this : maybe A) : bool := isValid this.
Definition operator_bool (this : maybe A) : bool := isValue this.

(** The body shared by both [operator*]: it reads [this] and writes nothing. *)
Definition deref (this : maybe A) : result A :=
  if negb (isValid this)
  then Throw (logic_error "Attempting to read the value of Nothing.")
  else reinterpret_cast (val this).

(** [value_type& operator* ()]: the outcome and [this] afterwards. *)
Definition operator_star (this : maybe A) : result A * maybe A :=
  (deref this, this).

(** [const value_type& operator* () const] *)
Definition operator_star_const (this : maybe A) : result A * maybe A :=
  (deref this, this).

(** [value(const A& a)] and [value(A&& a)] *)
Definition value (a : A) : result (maybe A) := maybe_of_copy a.
Definition value_rv (a : A) : result (maybe A) := maybe_of_move a.

(** *** Objects on a heap *)

Definition load (p : addr) : ST (gmap addr (maybe A)) (maybe A) := λ σ,
  match σ !! p with
  | Some o => (Ret o, σ)
  | None => (Undefined, σ)
  end.

Definition write (p : addr) (o : maybe A) : ST (gmap addr (maybe A)) unit :=
  λ σ, (Ret (), <[p:=o]> σ).

(** [p->isValid = b] *)
Definition set_isValid (p : addr) (b : bool) : ST (gmap addr (maybe A)) unit :=
  o ← load p; write p (Maybe (val o) b).

(** [new (&p->val) value_type(...)]: the constructor runs first; the cell
    is written only when it returns. *)
Definition placement_new (p : addr) (ctor : result A)
  : ST (gmap addr (maybe A)) unit :=
  a ← lift ctor; o ← load p; write p (Maybe (live a) (isValid o)).

(** [void self_destruct()]; [~A()] leaves raw bytes behind and does not
    throw. *)
Definition self_destruct (this : addr) : ST (gmap addr (maybe A)) unit :=
  o ← load this;
  if isValid o then
    _ ← lift (reinterpret_cast (val o));
    write this (Maybe raw (isValid o));;
    set_isValid this false
  else mret ().

(** [p->val] as a constructor that was handed the cell leaves it. *)
Definition set_val (p : addr) (c : storage A) : ST (gmap addr (maybe A)) unit :=
  o ← load p; write p (Maybe c (isValid o)).

End maybe.

Section assignment.
Context {A : Type} `{CellConstructible A}.

(** [const maybe& operator= (const maybe& m)]; its placement new is
    [new (&val) value_type(m.val)], on the cell of [m]. *)
Definition copy_assign (this m : addr) : ST (gmap addr (maybe A)) addr :=
  if decide (this = m) then mret this
  else
    self_destruct this;;
    src ← load m;
    set_isValid this (isValid src);;
    dst ← load this;
    (if isValid dst
     then placement_new this (construct_from_cell (val src))
     else mret ());;
    mret this.

(** [const maybe& operator= (maybe&& m)]; its placement new is
    [new (&val) value_type(std::move(m.val))]. *)
Definition move_assign (this m : addr) : ST (gmap addr (maybe A)) addr :=
  if decide (this = m) then mret this
  else
    self_destruct this;;
    src ← load m;
    set_isValid this (isValid src);;
    dst ← load this;
    (if isValid dst
     then
       set_val m (construct_from_cell_rv (val src)).2;;
       placement_new this (construct_from_cell_rv (val src)).1;;
       set_isValid m false
     else mret ());;
    mret this.

End assignment.

(** ** The monoid concept

    Modelled from the spec: the [monoid<T>] trait of monoid.h, which is not
    among the sources.  Section 4.1 gives its operations, [id() → T] and
    [append(x: T, y: T) → T], and its laws. *)
Class monoid (T : Type) : Type := {
  monoid_id : T;
  monoid_append : T → T → T
}.

Class MonoidLaws (T : Type) `{monoid T} : Prop := {
  monoid_left_id : ∀ x : T, monoid_append monoid_id x = x;
  monoid_right_id : ∀ x : T, monoid_append x monoid_id = x;
  monoid_assoc : ∀ x y z : T,
    monoid_append (monoid_append x y) z = monoid_append x (monoid_append y z)
}.

(** ** monoid<maybe<A>> *)
Module monoid_maybe.
Section defs.
Context {A : Type} `{Constructible A} `{monoid A}.

Definition append (m1 m2 : maybe A) : result (maybe A) :=
  if operator_bool m1 then
    if operator_bool m2 then
      x ← deref m1; y ← deref m2; maybe_of_move (monoid_append x y)
    else copy_ctor m1
  else if operator_bool m2 then copy_ctor m2
  else Ret nothing.

Definition id : maybe A := nothing.

End defs.
End monoid_maybe.

(** ** monad<maybe>

    A callable handed to [map] or [bind] is user code: it returns or throws. *)
Module monad_maybe.
Section defs.
Context {A B : Type} `{Constructible A} `{Constructible B}.

(** [pure(const A& a)] and [pure(A&& a)] *)
Definition pure (a : A) : result (maybe A) := value a.
Definition pure_rv (a : A) : result (maybe A) := value_rv a.

(** [return m ? value(f( *m)) : maybe<B>();] *)
Definition map (f : A → result B) (m : maybe A) : result (maybe B) :=
  if operator_bool m then x ← deref m; y ← f x; value_rv y
  else Ret nothing.

(** [return m ? f( *m) : maybe<B>();] *)
Definition bind (m : maybe A) (f : A → result (maybe B)) : result (maybe B) :=
  if operator_bool m then x ← deref m; f x
  else Ret nothing.

End defs.
End monad_maybe.

(** ** std::tuple

    [std::tuple<Ts...>] is [hlist Ts].  Template instantiation can fail: a
    program that instantiates [std::get<i>] past the end of a tuple is
    ill-formed, which the embedding reports as [None]. *)
Module tuple.

(** One value of some type, and an argument pack. *)
Definition dyn : Type := {T : Type & T}.
Definition pack : Type := {Us : tlist & hlist Us}.
Definition pnil : pack := existT tnil hnil.
Definition pcons (x : dyn) (p : pack) : pack :=
  existT (tcons (projT1 x) (projT1 p)) (hcons (projT2 x) (projT2 p)).

(** [sizeof...(Ts)] *)
Fixpoint sizeof (Ts : tlist) : N :=
  match Ts with
  | tnil => 0
  | tcons _ Ts' => N.succ (sizeof Ts')
  end.

(** [n - 1] in [std::size_t]: it wraps at zero. *)
Definition size_t_pred (n : N) : N := ((n + 2 ^ 64 - 1) mod 2 ^ 64)%N.

(** [std::get<i>(t)] *)
Fixpoint get {Ts} (i : N) (t : hlist Ts) : option dyn :=
  match t with
  | hnil => None
  | @hcons T _ x t' =>
      if decide (i = 0%N) then Some (existT T x) else get (N.pred i) t'
  end.

(** [std::get<i>(ret) = std::get<i>(o)] for two tuples of one type *)
Fixpoint assign_get {Ts} (i : N) : hlist Ts → hlist Ts → option (hlist Ts) :=
  match Ts with
  | tnil => λ _ _, None
  | tcons T Ts' => λ ret o,
      if decide (i = 0%N) then Some (hcons (hhead o) (htail ret))
      else hcons (hhead ret) <$> assign_get (N.pred i) (htail ret) (htail o)
  end.

(** The expansion [pattern(S)...] of a pack of indices. *)
Fixpoint expand (pattern : N → option dyn) (Ss : list N) : option pack :=
  match Ss with
  | [] => Some pnil
  | i :: Ss' => x ← pattern i; p ← expand pattern Ss'; Some (pcons x p)
  end.

(** Modelled from the spec: the compile-time index sequence generator of
    type_functions.h, which is not among the sources (section 1 names the
    "compile-time sequence generators", section 9 the "compile-time index
    sequences").  [gen_seq<Z,N>::type] is [seq<Z, Z+1, ..., N>]. *)
Definition gen_seq (first last : N) : list N :=
  (λ i, first + N.of_nat i)%N <$> seq 0 (N.to_nat (last + 1 - first)).

(** Value initialisation, which [std::tuple]'s default constructor applies
    to every element. *)
Class DefaultConstructible (T : Type) : Type := value_init : T.

Fixpoint allDefault (Ts : tlist) : Type :=
  match Ts with
  | tnil => unit
  | tcons T Ts' => (DefaultConstructible T * allDefault Ts')%type
  end.

Fixpoint default_ctor {Ts} : allDefault Ts → hlist Ts :=
  match Ts with
  | tnil => λ _, hnil
  | tcons T Ts' => λ ds, hcons (fst ds) (default_ctor (snd ds))
  end.

(** [allMonoids<Ts...>]: a monoid instance for every type of the pack. *)
Fixpoint allMonoids (Ts : tlist) : Type :=
  match Ts with
  | tnil => unit
  | tcons T Ts' => (monoid T * allMonoids Ts')%type
  end.

(** [monoid<Ts>::id()...] *)
Fixpoint ids {Ts} : allMonoids Ts → hlist Ts :=
  match Ts with
  | tnil => λ _, hnil
  | tcons T Ts' => λ ms, hcons (@monoid_id T (fst ms)) (ids (snd ms))
  end.

(** *** tup<N,T> *)

(** The template argument of [tup<N,T>] as a Peano index.  [tup<N,T>::fmap]
    names [std::get<N>] of a [T], so it only instantiates below the size. *)
Definition tup (N size : N) : option nat :=
  if decide (N < size)%N then Some (N.to_nat N) else None.

(** [tup<N,T>::fmap(f, ret, o)], for [O] the tuple type [T] itself: the
    recursion is the one of the primary template and its specialisation
    [tup<0,T>].  The result is [ret] afterwards. *)
Fixpoint tup_fmap {A Ts} (N : nat) (f : A → A)
    (ret o : hlist (tcons A Ts)) : option (hlist (tcons A Ts)) :=
  match N with
  | O => Some (hcons (f (hhead o)) (htail ret))
  | S N' =>
      ret' ← tup_fmap N' f ret o;
      assign_get (N.of_nat N) ret' o
  end.

(** [tup_apply(seq<S...>, f, t)]: [return f(std::get<S>(t)...);].  The
    callable is an object whose call operator takes an argument pack. *)
Definition callable (R : Type) : Type := ∀ Us : tlist, hlist Us → R.

Definition tup_apply {R Ts} (Ss : list N) (f : callable R) (t : hlist Ts)
  : option R :=
  args ← expand (λ i, get i t) Ss; Some (f (projT1 args) (projT2 args)).

(** [monoid<decltype(std::get<S>(t1))>::append(std::get<S>(t1),
    std::get<S>(t2))] on the tails, which share their types. *)
Fixpoint tail_append_get {Ts} (i : N)
  : allMonoids Ts → hlist Ts → hlist Ts → option dyn :=
  match Ts with
  | tnil => λ _ _ _, None
  | tcons T Ts' => λ ms r s,
      if decide (i = 0%N)
      then Some (existT T (@monoid_append T (fst ms) (hhead r) (hhead s)))
      else tail_append_get (N.pred i) (snd ms) (htail r) (htail s)
  end.

(** The same on the whole tuples: position 0 holds an [F] in one and an [A]
    in the other, and neither is asked to be a monoid. *)
Definition append_get {F A Ts} (ms : allMonoids Ts) (i : N)
    (t1 : hlist (tcons F Ts)) (t2 : hlist (tcons A Ts)) : option dyn :=
  if decide (i = 0%N) then None
  else tail_append_get (N.pred i) ms (htail t1) (htail t2).

Section instances.
Context {A B : Type} {Ts : tlist}.

(** [apply_on_first(t1, t2, seq<S...>)]; the arguments handed to the
    constructor of [std::tuple<B,Ts...>] are the result. *)
Definition apply_on_first (ms : allMonoids Ts)
    (t1 : hlist (tcons (A → B) Ts)) (t2 : hlist (tcons A Ts)) (Ss : list N)
  : option pack :=
  let f := hhead t1 in
  rest ← expand (λ i, append_get ms i t1 t2) Ss;
  Some (pcons (existT B (f (hhead t2))) rest).

Definition applicative_implementation (ms : allMonoids Ts)
    (t1 : hlist (tcons (A → B) Ts)) (t2 : hlist (tcons A Ts)) : option pack :=
  apply_on_first ms t1 t2 (gen_seq 1 (sizeof Ts)).

End instances.

(** [functor<std::tuple>::map(f, t)]: the tuple returned and [t] afterwards.
    [t] is passed where [fmap] takes a [std::tuple<B,Ts...>&], which only
    binds when [B] is [A]. *)
Definition functor_map {A Ts} (ds : allDefault (tcons A Ts)) (f : A → A)
    (t : hlist (tcons A Ts))
  : option (hlist (tcons A Ts) * hlist (tcons A Ts)) :=
  let ret := default_ctor ds in
  N ← tup (size_t_pred (sizeof Ts)) (sizeof (tcons A Ts));
  t' ← tup_fmap N f t ret;
  Some (ret, t').

(** [applicative<std::tuple>::pure(a)]:
    [std::make_tuple(a, monoid<Ts>::id()...)] *)
Definition applicative_pure {A Ts} (ms : allMonoids Ts) (a : A)
  : hlist (tcons A Ts) :=
  hcons a (ids ms).

(** [applicative<std::tuple>::apply(tfn, t)] *)
Definition applicative_apply {A B Ts} (ms : allMonoids Ts)
    (tfn : hlist (tcons (A → B) Ts)) (t : hlist (tcons A Ts)) : option pack :=
  applicative_implementation ms tfn t.

(** The free helper [apply(f, t)]:
    [tup_apply(seq<0,sizeof...(Ts)-1>(), f, t)] *)
Definition apply {R Ts} (f : callable R) (t : hlist Ts) : option R :=
  tup_apply [0%N; size_t_pred (sizeof Ts)] f t.

(** What section 4.5 writes for the tail of [apply]:
    [append(r₁,s₁), …, append(rₖ,sₖ)]. *)
Fixpoint zip_append {Ts} : allMonoids Ts → hlist Ts → hlist Ts → hlist Ts :=
  match Ts with
  | tnil => λ _ _ _, hnil
  | tcons T Ts' => λ ms r s,
      hcons (@monoid_append T (fst ms) (hhead r) (hhead s))
            (zip_append (snd ms) (htail r) (htail s))
  end.

(** The identity of the monoid at tail position [i]. *)
Fixpoint id_at {Ts} (i : N) : allMonoids Ts → option dyn :=
  match Ts with
  | tnil => λ _, None
  | tcons T Ts' => λ ms,
      if decide (i = 0%N) then Some (existT T (@monoid_id T (fst ms)))
      else id_at (N.pred i) (snd ms)
  end.

End tuple.

(** ** Payload types and tuples of the worked examples *)

(** [int]: copying and moving never throw. *)
#[global] Instance Z_constructible : Constructible Z :=
  {| copy_construct := Ret; move_construct := Ret |}.

(** A payload whose constructors from the storage cell read the payload
    that the cell holds, and throw when it is 20. *)
Definition fragile : CellConstructible Z :=
  {| construct_from_cell c :=
       a ← reinterpret_cast c;
       if decide (a = 20%Z) then Throw (thrown 0) else Ret a;
     construct_from_cell_rv c :=
       (a ← reinterpret_cast c;
        if decide (a = 20%Z) then Throw (thrown 0) else Ret a, c) |}.

(** A payload with a constructor template that accepts any argument, the
    storage cell included, and builds the payload -1 from it. *)
Definition from_anything : CellConstructible Z :=
  {| construct_from_cell _ := Ret (-1)%Z;
     construct_from_cell_rv c := (Ret (-1)%Z, c) |}.

#[global] Instance Z_default : tuple.DefaultConstructible Z := 0%Z.

(** Strings under concatenation, lists under concatenation, [int] under
    addition. *)
#[global] Instance string_monoid : monoid string :=
  {| monoid_id := ""; monoid_append := String.append |}.
#[global] Instance list_monoid {T} : monoid (list T) :=
  {| monoid_id := []; monoid_append := app |}.
#[global] Instance Z_monoid : monoid Z :=
  {| monoid_id := 0%Z; monoid_append := Z.add |}.

(** A heap with a present destination at 1 and a present source at 2. *)
Definition two_objects : gmap addr (maybe Z) :=
  {[ 1%positive := Maybe (live 10%Z) true; 2%positive := Maybe (live 20%Z) true ]}.


(** [sizeof...(args)] as a callable: it counts the arguments of the call. *)
Definition count_args : tuple.callable N := λ Us _, tuple.sizeof Us.

(** ** The rest of maybe.h: comparison *)

(** The payload's own [operator==], and its [operator<] and [operator>]. *)
Class EqComparable (A : Type) : Type := payload_eq : A → A → bool.
Class Orderable (A : Type) : Type := {
  payload_lt : A → A → bool;
  payload_gt : A → A → bool
}.

Section comparison.
Context {A : Type}.

(** [bool operator== (const maybe<A>& m1, const maybe<A>& m2)] *)
Definition operator_eq `{EqComparable A} (m1 m2 : maybe A) : result bool :=
  if operator_bool m1 && operator_bool m2 then
    x ← deref m1; y ← deref m2; Ret (payload_eq x y)
  else if negb (operator_bool m1) && negb (operator_bool m2) then Ret true
  else Ret false.

(** [bool operator!= (const maybe<A>& m1, const maybe<A>& m2)] *)
Definition operator_ne `{EqComparable A} (m1 m2 : maybe A) : result bool :=
  b ← operator_eq m1 m2; Ret (negb b).

(** [bool operator< (const maybe<A>& m1, const maybe<A>& m2)] *)
Definition operator_lt `{Orderable A} (m1 m2 : maybe A) : result bool :=
  if operator_bool m1 then
    if operator_bool m2 then x ← deref m1; y ← deref m2; Ret (payload_lt x y)
    else Ret false
  else if operator_bool m2 then Ret true
  else Ret false.

(** [bool operator> (const maybe<A>& m1, const maybe<A>& m2)] *)
Definition operator_gt `{Orderable A} (m1 m2 : maybe A) : result bool :=
  if operator_bool m1 then
    if operator_bool m2 then x ← deref m1; y ← deref m2; Ret (payload_gt x y)
    else Ret true
  else if operator_bool m2 then Ret false
  else Ret false.

End comparison.

(** Every object of the heap satisfies I1. *)
Definition heap_wf {A} (σ : gmap addr (maybe A)) : Prop :=
  map_Forall (λ _ o, wf o) σ.

(** An outcome that is a return or an exception of user code: neither the
    [std::logic_error] of an absent access nor undefined behaviour. *)
Definition quiet {X} (r : result X) : Prop :=
  match r with
  | Ret _ => True
  | Throw (thrown _) => True
  | Throw (logic_error _) => False
  | Undefined => False
  end.

(** [int]'s comparison operators. *)
#[global] Instance Z_eq_comparable : EqComparable Z := Z.eqb.
#[global] Instance Z_orderable : Orderable Z :=
  {| payload_lt := Z.ltb; payload_gt := Z.gtb |}.

(** ** The rest of tuple.h: monoid<std::tuple<Ts...>> *)
Module tuple_monoid.
Import tuple.

(** What [x ^ y] means for a field of type [T]: on a built-in integer it is
    the bitwise exclusive or, whatever monoid the type is given; on a class
    type it is the [operator^] that overload resolution finds (monoid.h,
    which is not among the sources, declares one for monoids). *)
Class Caret (T : Type) : Type := caret : T → T → T.

Fixpoint allCarets (Ts : tlist) : Type :=
  match Ts with
  | tnil => unit
  | tcons T Ts' => (Caret T * allCarets Ts')%type
  end.

(** [std::get<i>(ret) = std::get<i>(ret) ^ std::get<i>(t2)] *)
Fixpoint app_get {Ts} (i : N)
  : allCarets Ts → hlist Ts → hlist Ts → option (hlist Ts) :=
  match Ts with
  | tnil => λ _ _ _, None
  | tcons T Ts' => λ cs ret t2,
      if decide (i = 0%N)
      then Some (hcons (@caret T (fst cs) (hhead ret) (hhead t2)) (htail ret))
      else hcons (hhead ret)
             <$> app_get (N.pred i) (snd cs) (htail ret) (htail t2)
  end.

(** [tup<N,T>::app(ret, t2)]: the result is [ret] afterwards. *)
Fixpoint tup_app {Ts} (N : nat) (cs : allCarets Ts) (ret t2 : hlist Ts)
  : option (hlist Ts) :=
  match N with
  | O => app_get 0 cs ret t2
  | S N' =>
      ret' ← tup_app N' cs ret t2;
      app_get (N.of_nat N) cs ret' t2
  end.

(** [monoid<std::tuple<Ts...>>::id()] *)
Definition id {Ts} (ms : allMonoids Ts) : hlist Ts := ids ms.

(** [monoid<std::tuple<Ts...>>::append(t1, t2)]; the monoid instances are
    what its [enable_if] asks for, the body only uses [^]. *)
Definition append {Ts} (ms : allMonoids Ts) (cs : allCarets Ts)
    (t1 t2 : hlist Ts) : option (hlist Ts) :=
  let ret := t1 in
  N ← tup (size_t_pred (sizeof Ts)) (sizeof Ts);
  tup_app N cs ret t2.

End tuple_monoid.

(** [x1 ^ y1, ..., xn ^ yn] *)
Fixpoint zip_caret {Ts}
  : tuple_monoid.allCarets Ts → hlist Ts → hlist Ts → hlist Ts :=
  match Ts with
  | tnil => λ _ _ _, hnil
  | tcons T Ts' => λ cs r s,
      hcons (@tuple_monoid.caret T (fst cs) (hhead r) (hhead s))
            (zip_caret (snd cs) (htail r) (htail s))
  end.

(** For every field, [^] is the [append] of the field's monoid. *)
Fixpoint carets_are_appends {Ts}
  : tuple.allMonoids Ts → tuple_monoid.allCarets Ts → Prop :=
  match Ts with
  | tnil => λ _ _, True
  | tcons T Ts' => λ ms cs,
      (∀ x y : T, @tuple_monoid.caret T (fst cs) x y
                  = @monoid_append T (fst ms) x y) ∧
      carets_are_appends (snd ms) (snd cs)
  end.

(** [int]: [^] is the bitwise exclusive or; it is the [append] of the
    monoid of integers under exclusive or, not of the one under addition. *)
#[global] Instance Z_caret : tuple_monoid.Caret Z := Z.lxor.
Definition Z_xor_monoid : monoid Z :=
  {| monoid_id := 0%Z; monoid_append := Z.lxor |}.
Definition Z_pair_carets
  : tuple_monoid.allCarets (tcons Z (tcons Z tnil)) := (Z_caret, (Z_caret, ())).
Definition Z_pair_xor_monoids : tuple.allMonoids (tcons Z (tcons Z tnil)) :=
  (Z_xor_monoid, (Z_xor_monoid, ())).

(** Every monoid of the pack satisfies the monoid laws. *)
Fixpoint allLaws {Ts} : tuple.allMonoids Ts → Prop :=
  match Ts with
  | tnil => λ _, True
  | tcons T Ts' => λ ms, @MonoidLaws T (fst ms) ∧ allLaws (snd ms)
  end.

(** The first [k] elements of [upd] followed by the rest of [h]. *)
Fixpoint splice {Ts} (k : nat) : hlist Ts → hlist Ts → hlist Ts :=
  match Ts with
  | tnil => λ _ h, h
  | tcons T Ts' => λ upd h,
      match k with
      | O => h
      | S k' => hcons (hhead upd) (splice k' (htail upd) (htail h))
      end
  end.

(** The monoids of the fields of a [std::tuple<int,int>]. *)
Definition Z_pair_monoids : tuple.allMonoids (tcons Z (tcons Z tnil)) :=
  (Z_monoid, (Z_monoid, ())).

(** * Properties *)

(** ** The state monad of the heap *)

Section heap_lemmas.
Context {A : Type} `{CellConstructible A}.
Implicit Types (σ : gmap addr (maybe A)) (p this m : addr) (o : maybe A).

Lemma ST_bind_unfold {Σ X Y} (c : ST Σ X) (k : X → ST Σ Y) (σ : Σ) :
  (c ≫= k) σ =
  match c σ with
  | (Ret x, σ') => k x σ'
  | (Throw e, σ') => (Throw e, σ')
  | (Undefined, σ') => (Undefined, σ')
  end.
Proof. reflexivity. Qed.

Lemma load_Some σ p o : σ !! p = Some o → load p σ = (Ret o, σ).
Proof. intros Hp. unfold load. by rewrite Hp. Qed.

Lemma set_isValid_Some σ p o b :
  σ !! p = Some o → set_isValid p b σ = (Ret (), <[p:=Maybe (val o) b]> σ).
Proof.
  intros Hp. unfold set_isValid. rewrite ST_bind_unfold, (load_Some _ _ o Hp).
  reflexivity.
Qed.

Lemma placement_new_Ret σ p o a :
  σ !! p = Some o →
  placement_new p (Ret a) σ = (Ret (), <[p:=Maybe (live a) (isValid o)]> σ).
Proof.
  intros Hp. unfold placement_new, lift.
  rewrite ST_bind_unfold. simpl. rewrite ST_bind_unfold, (load_Some _ _ o Hp).
  reflexivity.
Qed.

Lemma placement_new_Throw σ p e :
  placement_new p (Throw e) σ = (Throw e, σ).
Proof. reflexivity. Qed.

(** Destroying a well-formed object clears its flag; a set flag leaves raw
    bytes in the cell. *)
Lemma self_destruct_Some σ this o :
  σ !! this = Some o → wf o →
  self_destruct this σ =
    (Ret (), <[this:=Maybe (if isValid o then raw else val o) false]> σ).
Proof.
  intros Hp Hwf. unfold self_destruct.
  rewrite ST_bind_unfold, (load_Some _ _ o Hp).
  destruct o as [c [|]]; simpl in *.
  - destruct Hwf as [a Ha]; [done|]. simpl in Ha. subst c. unfold lift.
    rewrite ST_bind_unfold. simpl. rewrite ST_bind_unfold. unfold write at 1.
    rewrite (set_isValid_Some _ _ (Maybe raw true)) by apply lookup_insert_eq.
    simpl. by rewrite insert_insert_eq.
  - unfold mret, ST_ret. by rewrite insert_id.
Qed.

(** The heap after an assignment from a distinct source whose flag is set,
    up to the construction of the new payload. *)
Lemma assign_prefix σ this m dst src :
  this ≠ m → σ !! this = Some dst → wf dst → σ !! m = Some src →
  let c := if isValid dst then raw else val dst in
  let σ1 := <[this:=Maybe c false]> σ in
  let σ2 := <[this:=Maybe c (isValid src)]> σ1 in
  self_destruct this σ = (Ret (), σ1) ∧
  load m σ1 = (Ret src, σ1) ∧
  set_isValid this (isValid src) σ1 = (Ret (), σ2) ∧
  load this σ2 = (Ret (Maybe c (isValid src)), σ2).
Proof.
  intros Hne Hd Hwf Hs c σ1 σ2. split_and!.
  - by apply self_destruct_Some.
  - apply load_Some. subst σ1. by rewrite lookup_insert_ne.
  - subst σ2. apply (set_isValid_Some _ _ (Maybe c false)).
    subst σ1. apply lookup_insert_eq.
  - apply load_Some. subst σ2. apply lookup_insert_eq.
Qed.

Lemma set_val_Some σ p o c :
  σ !! p = Some o → set_val p c σ = (Ret (), <[p:=Maybe c (isValid o)]> σ).
Proof.
  intros Hp. unfold set_val. rewrite ST_bind_unfold, (load_Some _ _ o Hp).
  reflexivity.
Qed.

(** Copy assignment from a distinct source, evaluated: the payload is
    whatever [A]'s constructor builds from the source's cell. *)
Lemma copy_assign_eval σ this m dst src :
  this ≠ m → σ !! this = Some dst → wf dst → σ !! m = Some src →
  let c := if isValid dst then raw else val dst in
  let σ2 := <[this:=Maybe c (isValid src)]> (<[this:=Maybe c false]> σ) in
  copy_assign this m σ =
    if isValid src then
      match construct_from_cell (val src) with
      | Ret a' => (Ret this, <[this:=Maybe (live a') true]> σ2)
      | Throw e => (Throw e, σ2)
      | Undefined => (Undefined, σ2)
      end
    else (Ret this, σ2).
Proof.
  intros Hne Hd Hwf Hs.
  destruct (assign_prefix σ this m dst src Hne Hd Hwf Hs) as (E1 & E2 & E3 & E4).
  unfold copy_assign. rewrite decide_False by done.
  rewrite !ST_bind_unfold, E1, !ST_bind_unfold, E2, !ST_bind_unfold, E3.
  rewrite !ST_bind_unfold, E4. simpl.
  destruct (isValid src) eqn:Hv; [|done].
  rewrite !ST_bind_unfold.
  destruct (construct_from_cell (val src)) as [a'|e|]; [|done..].
  erewrite placement_new_Ret by apply lookup_insert_eq. done.
Qed.

(** Move assignment from a distinct source, evaluated. *)
Lemma move_assign_eval σ this m dst src :
  this ≠ m → σ !! this = Some dst → wf dst → σ !! m = Some src →
  let c := if isValid dst then raw else val dst in
  let σ2 := <[this:=Maybe c (isValid src)]> (<[this:=Maybe c false]> σ) in
  let cell := (construct_from_cell_rv (val src)).2 in
  let σ3 := <[m:=Maybe cell true]> σ2 in
  move_assign this m σ =
    if isValid src then
      match (construct_from_cell_rv (val src)).1 with
      | Ret a' =>
          (Ret this,
           <[m:=Maybe cell false]> (<[this:=Maybe (live a') true]> σ3))
      | Throw e => (Throw e, σ3)
      | Undefined => (Undefined, σ3)
      end
    else (Ret this, σ2).
Proof.
  intros Hne Hd Hwf Hs.
  destruct (assign_prefix σ this m dst src Hne Hd Hwf Hs) as (E1 & E2 & E3 & E4).
  unfold move_assign. rewrite decide_False by done.
  rewrite !ST_bind_unfold, E1, !ST_bind_unfold, E2, !ST_bind_unfold, E3.
  rewrite !ST_bind_unfold, E4. simpl.
  destruct (isValid src) eqn:Hv; [|done].
  rewrite !ST_bind_unfold.
  erewrite set_val_Some; last first.
  { rewrite !lookup_insert_ne by done. exact Hs. }
  rewrite Hv.
  destruct (construct_from_cell_rv (val src)) as [[a'|e|] cell]; simpl;
    [|done..].
  rewrite !ST_bind_unfold.
  erewrite placement_new_Ret; last first.
  { rewrite lookup_insert_ne by done. apply lookup_insert_eq. }
  simpl. erewrite set_isValid_Some; [|
    rewrite lookup_insert_ne by done; apply lookup_insert_eq].
  done.
Qed.

End heap_lemmas.

Lemma Z_nothrow : NoThrow Z.
Proof. by split. Qed.
#[global] Existing Instance Z_nothrow.

(** ** Unwrapping *)

(** C4: both [operator*] throw the [std::logic_error] of an absent access
    exactly when the flag is clear, throw nothing else, return the payload of
    a present maybe, and leave the object as it was. *)
Theorem unwrap_throws_iff_absent {A} (m : maybe A) :
  let absent_access :=
    Throw (logic_error "Attempting to read the value of Nothing.") in
  ((operator_star m).1 = absent_access ↔ isValid m = false) ∧
  ((operator_star_const m).1 = absent_access ↔ isValid m = false) ∧
  (∀ e, (operator_star m).1 = Throw e ∨ (operator_star_const m).1 = Throw e →
        Throw e = absent_access ∧ isValid m = false) ∧
  (∀ a, isValid m = true → val m = live a →
        (operator_star m).1 = Ret a ∧ (operator_star_const m).1 = Ret a) ∧
  (operator_star m).2 = m ∧ (operator_star_const m).2 = m.
Proof.
  destruct m as [[|a] [|]]; cbn; unfold deref; cbn; split_and!;
    first [ done | split; done | intros e [E|E]; by inversion E
          | by intros; simplify_eq ].
Qed.

(** ** Assignment *)

Lemma copy_assign_self {A} `{CellConstructible A}
    (m : addr) (σ : gmap addr (maybe A)) :
  copy_assign m m σ = (Ret m, σ).
Proof. unfold copy_assign. destruct (decide (m = m)); done. Qed.

Lemma move_assign_self {A} `{CellConstructible A}
    (m : addr) (σ : gmap addr (maybe A)) :
  move_assign m m σ = (Ret m, σ).
Proof. unfold move_assign. destruct (decide (m = m)); done. Qed.

(** C10: an assignment whose source is the destination itself returns at the
    address test: the operator yields [*this], and the heap, and with it the
    object, its flag and its payload, is the one it started from. *)
Theorem self_assignment_is_identity {A} `{CellConstructible A}
    (m : addr) (σ : gmap addr (maybe A)) :
  copy_assign m m σ = (Ret m, σ) ∧ move_assign m m σ = (Ret m, σ) ∧
  (copy_assign m m σ).2 !! m = σ !! m ∧ (move_assign m m σ).2 !! m = σ !! m.
Proof.
  rewrite copy_assign_self, move_assign_self. done.
Qed.

(** C2: on the heap [two_objects], with a payload whose constructors throw
    on 20, copy and move assignment of the object at 2 to the object at 1
    propagate the exception and leave the destination with its old payload
    destroyed, no new one constructed, and the flag set: it reports
    present. *)
Theorem assignment_failure_leaves_flag_set :
  copy_assign (H:=fragile) 1%positive 2%positive two_objects
    = (Throw (thrown 0),
       <[1%positive:=Maybe raw true]> two_objects) ∧
  move_assign (H:=fragile) 1%positive 2%positive two_objects
    = (Throw (thrown 0),
       <[1%positive:=Maybe raw true]> two_objects) ∧
  isValue (Maybe (A:=Z) raw true) = true ∧
  ¬ wf (Maybe (A:=Z) raw true).
Proof.
  split_and!; [by vm_compute..| |].
  - done.
  - intros Hwf. destruct Hwf as [a Ha]; [done|]. discriminate Ha.
Qed.

(** C5: move construction transfers the payload: from the present maybe
    holding 20 it builds a present maybe holding 20 and clears the flag of
    its source.  Move assignment does not: it hands the storage cell of its
    source, not the payload in it, to the payload's constructor.  With a
    payload type whose constructor template accepts the cell and builds -1,
    move assignment of the object at 2 to the object at 1 of [two_objects]
    returns and clears the source's flag, and the destination is present
    holding -1, not the 20 that the source held. *)
Theorem move_assign_constructs_from_the_cell :
  move_ctor (Maybe (live 20%Z) true)
    = Ret (Maybe (live 20%Z) true, Maybe (live 20%Z) false) ∧
  move_assign (H:=from_anything) 1%positive 2%positive two_objects
    = (Ret 1%positive,
       <[2%positive:=Maybe (live 20%Z) false]>
         (<[1%positive:=Maybe (live (-1)%Z) true]> two_objects)) ∧
  (move_assign (H:=from_anything) 1%positive 2%positive two_objects).2
    !! 1%positive = Some (Maybe (live (-1)%Z) true) ∧
  deref (Maybe (live (-1)%Z) true) = Ret (-1)%Z.
Proof. split_and!; by vm_compute. Qed.

(** ** monad<maybe> *)

Section monad_laws.
Import monad_maybe.

Lemma value_nothrow {A} `{Constructible A} `{!NoThrow A} (a : A) :
  value a = Ret (Maybe (live a) true) ∧ value_rv a = Ret (Maybe (live a) true).
Proof.
  unfold value, value_rv, maybe_of_copy, maybe_of_move.
  by rewrite copy_nothrow, move_nothrow.
Qed.

#[global] Instance maybe_equiv_equivalence {A} : Equivalence (≡@{maybe A}).
Proof.
  split.
  - by intros m.
  - intros m1 m2 [Hv Hc]. split; [done|]. intros Hv2. symmetry. apply Hc.
    by rewrite Hv.
  - intros m1 m2 m3 [Hv Hc] [Hv' Hc']. split; [by rewrite Hv|].
    intros Hv1. rewrite Hc by done. apply Hc'. by rewrite <- Hv.
Qed.

(** Copying a well-formed maybe yields a maybe with the same flag and
    payload; it is the source itself unless the source is an absent maybe
    whose cell still holds a moved-from payload. *)
Lemma copy_ctor_nothrow {A} `{Constructible A} `{!NoThrow A} (m : maybe A) :
  wf m →
  ∃ r, copy_ctor m = Ret r ∧ r ≡ m ∧
       (isValid m = true ∨ val m = raw → r = m).
Proof.
  intros Hwf. destruct m as [c [|]]; unfold copy_ctor; simpl.
  - destruct Hwf as [a Ha]; [done|]. simpl in Ha. subst c. simpl.
    rewrite copy_nothrow. by eexists.
  - eexists. split_and!; [done|by split|].
    intros [?| ->]; done.
Qed.

(** C6: [map] over a present maybe holding [x] returns a present maybe
    holding [f(x)], [bind] returns [k(x)]; over an absent maybe both return
    an absent maybe, whatever [f] and [k] are. *)
Theorem map_bind_maybe {A B} `{Constructible B} `{!NoThrow B}
    (f : A → B) (k : A → result (maybe B)) (m : maybe A) :
  (∀ x, isValid m = true → val m = live x →
     map (λ a, Ret (f a)) m = Ret (Maybe (live (f x)) true) ∧
     bind m k = k x) ∧
  (isValid m = false →
     map (λ a, Ret (f a)) m = Ret nothing ∧ bind m k = Ret nothing).
Proof.
  unfold map, bind, operator_bool, isValue, deref. split.
  - intros x -> ->. simpl. by rewrite (proj2 (value_nothrow _)).
  - by intros ->.
Qed.

Lemma map_bind_maybe_witness :
  map (λ a, Ret (Z.succ a)) (Maybe (live 41%Z) true)
    = Ret (Maybe (live 42%Z) true) ∧
  map (λ a : Z, Ret (Z.succ a)) nothing = Ret nothing ∧
  bind (Maybe (live 5%Z) true)
       (λ x, if decide (0 < x)%Z then value (x * 2)%Z else Ret nothing)
    = Ret (Maybe (live 10%Z) true).
Proof.
  set (k := λ x : Z, if decide (0 < x)%Z then value (x * 2)%Z else Ret nothing).
  destruct (map_bind_maybe Z.succ k (Maybe (live 41%Z) true)) as [H41 _].
  destruct (map_bind_maybe Z.succ k nothing) as [_ Hn].
  destruct (map_bind_maybe Z.succ k (Maybe (live 5%Z) true)) as [H5 _].
  destruct (H41 41%Z eq_refl eq_refl) as (E1 & _).
  destruct (Hn eq_refl) as (E2 & _).
  destruct (H5 5%Z eq_refl eq_refl) as (_ & E3).
  split_and!; [exact E1|exact E2|by rewrite E3].
Defined.

(** C8: the three monad laws of [maybe].  Left identity and associativity
    hold as equations between outcomes; right identity returns a maybe with
    the flag and payload of [m], for every [m] that satisfies I1, and [m]
    itself unless [m] is an absent maybe whose cell holds a moved-from
    payload. *)
Theorem monad_laws_maybe {A B C} `{Constructible A} `{!NoThrow A}
    (a : A) (k : A → result (maybe B)) (h : B → result (maybe C))
    (m : maybe A) :
  wf m →
  (pure a ≫= λ p, bind p k) = k a ∧
  (∃ r, bind m pure = Ret r ∧ r ≡ m ∧
        (isValid m = true ∨ val m = raw → r = m)) ∧
  (bind m k ≫= λ r, bind r h) = bind m (λ x, k x ≫= λ r, bind r h).
Proof.
  intros Hwf. unfold pure, bind, operator_bool, isValue, deref. split_and!.
  - by rewrite (proj1 (value_nothrow a)).
  - destruct m as [c [|]]; simpl.
    + destruct Hwf as [x Hx]; [done|]. simpl in Hx. subst c. simpl.
      rewrite (proj1 (value_nothrow x)). by eexists.
    + eexists. split_and!; [done|by split|].
      intros [?| ->]; done.
  - destruct m as [[|x] [|]]; simpl; try done.
Qed.

Lemma monad_laws_maybe_witness :
  wf (Maybe (live 5%Z) true) ∧
  (pure 5%Z ≫= λ p, bind p (λ x, value (x * 2)%Z)) = value (5 * 2)%Z ∧
  bind (Maybe (live 5%Z) true) pure = Ret (Maybe (live 5%Z) true) ∧
  (bind (Maybe (live 5%Z) true) (λ x, value (x * 2)%Z)
     ≫= λ r, bind r (λ y, value (y + 1)%Z))
  = bind (Maybe (live 5%Z) true)
         (λ x, value (x * 2)%Z ≫= λ r, bind r (λ y, value (y + 1)%Z)).
Proof.
  assert (wf (Maybe (live 5%Z) true)) as Hwf by (intros _; by eexists).
  destruct (monad_laws_maybe 5%Z (λ x, value (x * 2)%Z) (λ y, value (y + 1)%Z)
              (Maybe (live 5%Z) true) Hwf) as (Hl & (r & Hr & _ & Heq) & Ha).
  split_and!; [exact Hwf|exact Hl| |exact Ha].
  rewrite Hr, Heq; [done|by left].
Defined.

End monad_laws.

(** ** monoid<maybe<A>> *)

Lemma Z_monoid_laws : MonoidLaws Z.
Proof. split; simpl; intros; lia. Qed.
#[global] Existing Instance Z_monoid_laws.

(** C9: for a lawful monoid [A], the absent maybe is a left and a right
    identity of [append]: the result has the flag and payload of [m], for
    every [m] that satisfies I1, and is [m] itself unless [m] is an absent
    maybe whose cell holds a moved-from payload.  [append] is associative as
    an equation between outcomes. *)
Theorem monoid_laws_maybe {A} `{Constructible A} `{!NoThrow A}
    `{monoid A} `{!MonoidLaws A} (m x y z : maybe A) :
  wf m →
  (∃ r, monoid_maybe.append monoid_maybe.id m = Ret r ∧ r ≡ m ∧
        (isValid m = true ∨ val m = raw → r = m)) ∧
  (∃ r, monoid_maybe.append m monoid_maybe.id = Ret r ∧ r ≡ m ∧
        (isValid m = true ∨ val m = raw → r = m)) ∧
  (monoid_maybe.append x y ≫= λ r, monoid_maybe.append r z)
  = (monoid_maybe.append y z ≫= λ r, monoid_maybe.append x r).
Proof.
  intros Hwf.
  destruct (copy_ctor_nothrow m Hwf) as (r & Hr & Hrm & Heq).
  assert (isValid m = false →
          Maybe raw false ≡ m ∧
          (isValid m = true ∨ val m = raw → Maybe raw false = m)) as Habs.
  { intros Hv. split; [split; [by rewrite Hv|done]|].
    destruct m as [c v]; simpl in *. subst v. intros [?| ->]; done. }
  unfold monoid_maybe.append, monoid_maybe.id, nothing, operator_bool, isValue.
  split_and!.
  - simpl. destruct (isValid m) eqn:Hv.
    + by exists r.
    + eexists. split; [done|]. by apply Habs.
  - destruct (isValid m) eqn:Hv; simpl.
    + by exists r.
    + eexists. split; [done|]. by apply Habs.
  - unfold deref, copy_ctor, maybe_of_move.
    destruct x as [[|a] [|]], y as [[|b] [|]], z as [[|c] [|]]; simpl;
      repeat (rewrite ?copy_nothrow, ?move_nothrow; simpl);
      rewrite ?monoid_assoc; done.
Qed.

Lemma monoid_laws_maybe_witness :
  wf (Maybe (live 3%Z) true) ∧
  monoid_maybe.append monoid_maybe.id (Maybe (live 3%Z) true)
    = Ret (Maybe (live 3%Z) true) ∧
  monoid_maybe.append (Maybe (live 3%Z) true) monoid_maybe.id
    = Ret (Maybe (live 3%Z) true) ∧
  (monoid_maybe.append (Maybe (live 1%Z) true) nothing
     ≫= λ r, monoid_maybe.append r (Maybe (live 2%Z) true))
  = (monoid_maybe.append nothing (Maybe (live 2%Z) true)
     ≫= λ r, monoid_maybe.append (Maybe (live 1%Z) true) r).
Proof.
  assert (wf (Maybe (live 3%Z) true)) as Hwf by (intros _; by eexists).
  destruct (monoid_laws_maybe (Maybe (live 3%Z) true) (Maybe (live 1%Z) true)
              nothing (Maybe (live 2%Z) true) Hwf)
    as ((r1 & Hr1 & _ & Heq1) & (r2 & Hr2 & _ & Heq2) & Ha).
  split_and!; [exact Hwf| | |exact Ha].
  - rewrite Hr1, Heq1; [done|by left].
  - rewrite Hr2, Heq2; [done|by left].
Defined.

(** ** std::tuple *)

Section tuple_lemmas.
Import tuple.

(** The tuple that [functor<std::tuple>::map] returns is the
    default-constructed one, whatever [f] and [t] are. *)
Lemma functor_map_result {A Ts} (ds : allDefault (tcons A Ts)) (f : A → A)
    (t : hlist (tcons A Ts)) r :
  functor_map ds f t = Some r → r.1 = default_ctor ds.
Proof.
  unfold functor_map. intros Hr.
  destruct (tup _ _) as [n|]; [|done]. cbn [mbind option_bind] in Hr.
  destruct (tup_fmap _ _ _ _); cbn [mbind option_bind] in Hr; by simplify_eq.
Qed.

(** [apply] on tuples of one, two, three and no elements: the call receives
    element 0 and the last element, and nothing else. *)
Lemma apply_single {R A} (f : callable R) (a : A) :
  apply f (hcons a hnil) = Some (f _ (hcons a (hcons a hnil))).
Proof. reflexivity. Qed.

Lemma apply_pair {R A B} (f : callable R) (a : A) (b : B) :
  apply f (hcons a (hcons b hnil)) = Some (f _ (hcons a (hcons b hnil))).
Proof. reflexivity. Qed.

Lemma apply_triple {R A B C} (f : callable R) (a : A) (b : B) (c : C) :
  apply f (hcons a (hcons b (hcons c hnil)))
  = Some (f _ (hcons a (hcons c hnil))).
Proof. reflexivity. Qed.

Lemma apply_empty {R} (f : callable R) : apply f hnil = None.
Proof. reflexivity. Qed.

Lemma expand_fmap (g : N → option dyn) (h : N → N) (l : list N) :
  expand g (h <$> l) = expand (g ∘ h) l.
Proof.
  induction l as [|i l IH]; [done|].
  rewrite fmap_cons. cbn [expand]. by rewrite IH.
Qed.

Lemma expand_ext (g g' : N → option dyn) (l : list N) :
  Forall (λ i, g i = g' i) l → expand g l = expand g' l.
Proof.
  induction 1 as [|i l Hi _ IH]; [done|]. cbn [expand]. by rewrite Hi, IH.
Qed.

Lemma gen_seq_succ (k : N) :
  gen_seq 1 (N.succ k) = 1%N :: (N.succ <$> gen_seq 1 k).
Proof.
  unfold gen_seq.
  replace (N.succ k + 1 - 1)%N with (N.succ k) by lia.
  replace (k + 1 - 1)%N with k by lia.
  rewrite N2Nat.inj_succ. simpl. f_equal.
  rewrite <- fmap_S_seq, <- !list_fmap_compose.
  apply list_fmap_ext. intros _ i _. simpl. lia.
Qed.

Lemma gen_seq_pos (k : N) : Forall (λ i, i ≠ 0%N) (gen_seq 1 k).
Proof.
  unfold gen_seq. apply Forall_fmap, Forall_forall. intros i _. simpl. lia.
Qed.

(** The expansion over [gen_seq<1,k>] visits every tail position once, in
    order. *)
Lemma expand_tail_append {Ts} (ms : allMonoids Ts) (rs ss : hlist Ts) :
  expand (λ i, tail_append_get (N.pred i) ms rs ss) (gen_seq 1 (sizeof Ts))
  = Some (existT Ts (zip_append ms rs ss)).
Proof.
  induction Ts as [|T Ts IH]; [done|].
  cbn [sizeof]. rewrite gen_seq_succ. cbn [expand].
  cbn [tail_append_get N.pred]. rewrite decide_True by done.
  cbn [mbind option_bind]. rewrite expand_fmap.
  rewrite (expand_ext _
    (λ i, tail_append_get (N.pred i) (snd ms) (htail rs) (htail ss))).
  - rewrite IH. reflexivity.
  - eapply Forall_impl; [apply gen_seq_pos|]. intros i Hi. simpl.
    rewrite N.pred_succ. cbn [tail_append_get]. by rewrite decide_False.
Qed.

Lemma get_ids {Ts} (ms : allMonoids Ts) (i : N) :
  get i (ids ms) = id_at i ms.
Proof.
  revert i. induction Ts as [|T Ts IH]; intros i; [done|].
  cbn [ids get id_at]. destruct (decide (i = 0%N)); [done|]. apply IH.
Qed.

Lemma id_at_is_Some {Ts} (ms : allMonoids Ts) (i : N) :
  (i < sizeof Ts)%N ↔ is_Some (id_at i ms).
Proof.
  revert i. induction Ts as [|T Ts IH]; intros i; cbn [sizeof id_at].
  - split; [lia|]. by intros [? ?].
  - destruct (decide (i = 0%N)) as [->|Hi].
    + split; [by eexists|lia].
    + rewrite <- IH. lia.
Qed.

End tuple_lemmas.

(** C1: [functor<std::tuple>::map] with [f = succ] on the tuples (41, 5) and
    (41, 5, 7) returns the default-constructed tuples (0, 0) and (0, 0, 0),
    not (42, 5) and (42, 5, 7), and overwrites its argument. *)
Theorem functor_map_returns_default_tuple :
  tuple.functor_map (A:=Z) (Ts:=tcons Z tnil)
      (Z_default, (Z_default, ())) Z.succ (hcons 41%Z (hcons 5%Z hnil))
    = Some (hcons 0%Z (hcons 0%Z hnil), hcons 1%Z (hcons 5%Z hnil)) ∧
  tuple.functor_map (A:=Z) (Ts:=tcons Z (tcons Z tnil))
      (Z_default, (Z_default, (Z_default, ()))) Z.succ
      (hcons 41%Z (hcons 5%Z (hcons 7%Z hnil)))
    = Some (hcons 0%Z (hcons 0%Z (hcons 0%Z hnil)),
            hcons 1%Z (hcons 0%Z (hcons 7%Z hnil))).
Proof. split; reflexivity. Qed.

(** C3: [apply] hands a callable two of the three elements of the tuple
    (1, 2, 3): the argument count it reports is 2, where a call with the
    elements of the tuple reports 3. *)
Theorem apply_passes_first_and_last_only :
  tuple.apply count_args (hcons 1%Z (hcons 2%Z (hcons 3%Z hnil))) = Some 2%N ∧
  count_args _ (hcons 1%Z (hcons 2%Z (hcons 3%Z hnil))) = 3%N ∧
  ∀ (R : Type) (f : tuple.callable R),
    tuple.apply f (hcons 1%Z (hcons 2%Z (hcons 3%Z hnil)))
    = Some (f _ (hcons 1%Z (hcons 3%Z hnil))).
Proof. split_and!; reflexivity. Qed.

(** C7: [applicative<std::tuple>::pure(a)] is the tuple with head [a] whose
    tail position [i] holds the identity of the monoid of that position, and
    [apply] of [(f, r1, ..., rk)] to [(a, s1, ..., sk)] constructs
    [(f(a), append(r1,s1), ..., append(rk,sk))]. *)
Theorem tuple_applicative {A B Ts} (ms : tuple.allMonoids Ts)
    (a : A) (f : A → B) (rs ss : hlist Ts) :
  hhead (tuple.applicative_pure ms a) = a ∧
  (∀ i, tuple.get (N.succ i) (tuple.applicative_pure ms a)
        = tuple.id_at i ms) ∧
  (∀ i, (i < tuple.sizeof Ts)%N ↔ is_Some (tuple.id_at i ms)) ∧
  tuple.applicative_apply ms (hcons f rs) (hcons a ss)
  = Some (existT (tcons B Ts) (hcons (f a) (tuple.zip_append ms rs ss))).
Proof.
  split_and!.
  - done.
  - intros i. unfold tuple.applicative_pure. cbn [tuple.get].
    rewrite decide_False by lia. rewrite N.pred_succ. apply get_ids.
  - apply id_at_is_Some.
  - unfold tuple.applicative_apply, tuple.applicative_implementation,
      tuple.apply_on_first.
    rewrite (expand_ext _
      (λ i, tuple.tail_append_get (N.pred i) ms rs ss)).
    + rewrite expand_tail_append. reflexivity.
    + eapply Forall_impl; [apply gen_seq_pos|]. intros i Hi. simpl.
      unfold tuple.append_get. by rewrite decide_False.
Qed.

(** Scenario S6 of the specification. *)
Example apply_S6 :
  tuple.applicative_apply (Ts:=tcons string (tcons (list Z) tnil))
    (string_monoid, (list_monoid, ()))
    (hcons Z.succ (hcons "hi" (hcons [1%Z] hnil)))
    (hcons 7%Z (hcons "!" (hcons [2%Z] hnil)))
  = Some (existT _ (hcons 8%Z (hcons "hi!" (hcons [1%Z; 2%Z] hnil)))).
Proof. reflexivity. Qed.

(** * Further properties of maybe.h *)

Ltac wf_absurd :=
  match goal with
  | Hwf : wf (Maybe raw true) |- _ =>
      exfalso; destruct Hwf as [? Hwf]; [reflexivity|];
      simpl in Hwf; discriminate Hwf
  end.

(** Case analysis on well-formed maybes: the flag is clear, or the cell
    holds a payload. *)
Ltac wf_cases :=
  repeat match goal with
  | m : maybe _ |- _ => destruct m as [[|?] [|]]
  end;
  try wf_absurd;
  repeat match goal with Hwf : wf _ |- _ => clear Hwf end.

Section comparison_lemmas.
Context {A : Type}.
Implicit Types m : maybe A.

(** X1: on maybes that satisfy I1, [operator==] is reflexive, symmetric and
    transitive whenever the payload's [operator==] is. *)
Theorem operator_eq_is_equivalence `{EqComparable A} (m1 m2 m3 : maybe A) :
  wf m1 → wf m2 → wf m3 →
  (∀ x : A, payload_eq x x = true) →
  (∀ x y : A, payload_eq x y = payload_eq y x) →
  (∀ x y z : A, payload_eq x y = true → payload_eq y z = true →
                payload_eq x z = true) →
  operator_eq m1 m1 = Ret true ∧
  operator_eq m1 m2 = operator_eq m2 m1 ∧
  (operator_eq m1 m2 = Ret true → operator_eq m2 m3 = Ret true →
   operator_eq m1 m3 = Ret true).
Proof.
  intros Hwf1 Hwf2 Hwf3 Hrefl Hsym Htrans.
  wf_cases; cbn; split_and!; try done;
    rewrite ?Hrefl; try done; try (by rewrite Hsym).
  intros [= E1] [= E2]. f_equal. eauto.
Qed.

(** X2: when the payload's [operator==] decides equality, [operator==]
    returns [true] exactly on maybes with the same flag and, when set, the
    same payload; [operator!=] returns the opposite answer. *)
Theorem operator_eq_decides `{EqComparable A} (m1 m2 : maybe A) :
  wf m1 → wf m2 →
  (∀ x y : A, payload_eq x y = true ↔ x = y) →
  ∃ b, operator_eq m1 m2 = Ret b ∧ operator_ne m1 m2 = Ret (negb b) ∧
       (b = true ↔ m1 ≡ m2).
Proof.
  intros Hwf1 Hwf2 Hdec. unfold operator_ne.
  wf_cases; cbn; eexists; (split; [reflexivity|]); (split; [reflexivity|]);
    unfold equiv, maybe_equiv; simpl; rewrite ?Hdec;
    (split; [intros E|intros [E1 E2]]);
    first [ done | by subst | specialize (E2 eq_refl); congruence ].
Qed.

(** X3: an absent maybe is less than every present one and no maybe is less
    than an absent one; [operator<] is irreflexive and transitive whenever
    the payload's [operator<] is. *)
Theorem operator_lt_strict_order `{Orderable A} (m1 m2 m3 : maybe A) :
  wf m1 → wf m2 → wf m3 →
  (∀ x : A, payload_lt x x = false) →
  (∀ x y z : A, payload_lt x y = true → payload_lt y z = true →
                payload_lt x z = true) →
  (isValid m1 = false → isValid m2 = true → operator_lt m1 m2 = Ret true) ∧
  (isValid m2 = false → operator_lt m1 m2 = Ret false) ∧
  operator_lt m1 m1 = Ret false ∧
  (operator_lt m1 m2 = Ret true → operator_lt m2 m3 = Ret true →
   operator_lt m1 m3 = Ret true).
Proof.
  intros Hwf1 Hwf2 Hwf3 Hirr Htrans.
  wf_cases; cbn; split_and!; try done; rewrite ?Hirr; try done.
  intros [= E1] [= E2]. f_equal. eauto.
Qed.

(** X4: when the payload's [operator>] is the converse of its [operator<],
    so is the one of [maybe]; and when exactly one of [x < y], [x == y],
    [y < x] holds of any two payloads, exactly one of [m1 < m2],
    [m1 == m2], [m1 > m2] returns true. *)
Theorem operator_gt_converse_and_trichotomy `{EqComparable A} `{Orderable A}
    (m1 m2 : maybe A) :
  wf m1 → wf m2 →
  (∀ x y : A, payload_gt x y = payload_lt y x) →
  (∀ x y : A, Nat.b2n (payload_lt x y) + Nat.b2n (payload_eq x y)
              + Nat.b2n (payload_lt y x) = 1) →
  operator_gt m1 m2 = operator_lt m2 m1 ∧
  ∃ l e g, operator_lt m1 m2 = Ret l ∧ operator_eq m1 m2 = Ret e ∧
           operator_gt m1 m2 = Ret g ∧
           Nat.b2n l + Nat.b2n e + Nat.b2n g = 1.
Proof.
  intros Hwf1 Hwf2 Hconv Htri.
  wf_cases; cbn; (split; [by rewrite ?Hconv|]);
    do 3 eexists; split_and!; try reflexivity.
  rewrite Hconv. apply Htri.
Qed.

End comparison_lemmas.

Lemma wf_present {A} (a : A) : wf (Maybe (live a) true).
Proof. intros _. by eexists. Qed.

Lemma wf_absent {A} (c : storage A) : wf (Maybe c false).
Proof. intros [=]. Qed.

Lemma operator_eq_is_equivalence_witness :
  operator_eq (Maybe (live 7%Z) true) (Maybe (live 7%Z) true) = Ret true ∧
  operator_eq (Maybe (live 7%Z) true) nothing
    = operator_eq nothing (Maybe (live 7%Z) true) ∧
  (operator_eq (Maybe (live 7%Z) true) nothing = Ret true →
   operator_eq nothing (Maybe (live 8%Z) true) = Ret true →
   operator_eq (Maybe (live 7%Z) true) (Maybe (live 8%Z) true) = Ret true).
Proof.
  apply (operator_eq_is_equivalence (A:=Z)
           (Maybe (live 7%Z) true) nothing (Maybe (live 8%Z) true)).
  - apply wf_present.
  - apply wf_absent.
  - apply wf_present.
  - apply Z.eqb_refl.
  - apply Z.eqb_sym.
  - unfold payload_eq, Z_eq_comparable. intros x y z.
    rewrite !Z.eqb_eq. congruence.
Defined.

Lemma operator_eq_decides_witness :
  ∃ b, operator_eq (Maybe (live 7%Z) true) (Maybe (live 8%Z) true) = Ret b ∧
       operator_ne (Maybe (live 7%Z) true) (Maybe (live 8%Z) true)
         = Ret (negb b) ∧
       (b = true ↔ Maybe (live 7%Z) true ≡ Maybe (live 8%Z) true).
Proof.
  apply (operator_eq_decides (A:=Z)).
  - apply wf_present.
  - apply wf_present.
  - apply Z.eqb_eq.
Defined.

Lemma operator_lt_strict_order_witness :
  (isValid (nothing (A:=Z)) = false → isValid (Maybe (live 3%Z) true) = true →
   operator_lt nothing (Maybe (live 3%Z) true) = Ret true) ∧
  (isValid (Maybe (live 3%Z) true) = false →
   operator_lt nothing (Maybe (live 3%Z) true) = Ret false) ∧
  operator_lt (nothing (A:=Z)) nothing = Ret false ∧
  (operator_lt nothing (Maybe (live 3%Z) true) = Ret true →
   operator_lt (Maybe (live 3%Z) true) (Maybe (live 4%Z) true) = Ret true →
   operator_lt nothing (Maybe (live 4%Z) true) = Ret true).
Proof.
  apply (operator_lt_strict_order (A:=Z)
           nothing (Maybe (live 3%Z) true) (Maybe (live 4%Z) true)).
  - apply wf_absent.
  - apply wf_present.
  - apply wf_present.
  - apply Z.ltb_irrefl.
  - unfold payload_lt, Z_orderable. intros x y z.
    rewrite !Z.ltb_lt. lia.
Defined.

Lemma Z_trichotomy (x y : Z) :
  Nat.b2n (x <? y)%Z + Nat.b2n (x =? y)%Z + Nat.b2n (y <? x)%Z = 1.
Proof.
  destruct (Z.ltb_spec x y), (Z.eqb_spec x y), (Z.ltb_spec y x); simpl; lia.
Qed.

Lemma operator_gt_converse_and_trichotomy_witness :
  operator_gt (Maybe (live 3%Z) true) nothing
    = operator_lt nothing (Maybe (live 3%Z) true) ∧
  ∃ l e g, operator_lt (Maybe (live 3%Z) true) nothing = Ret l ∧
           operator_eq (Maybe (live 3%Z) true) nothing = Ret e ∧
           operator_gt (Maybe (live 3%Z) true) nothing = Ret g ∧
           Nat.b2n l + Nat.b2n e + Nat.b2n g = 1.
Proof.
  apply (operator_gt_converse_and_trichotomy (A:=Z)).
  - apply wf_present.
  - apply wf_absent.
  - apply Z.gtb_ltb.
  - apply Z_trichotomy.
Defined.

(** ** Assignment on the heap *)

Section heap_eval.
Context {A : Type} `{CellConstructible A}.
Implicit Types (σ : gmap addr (maybe A)) (p this m : addr) (o : maybe A).

(** X7: invariant I1 is kept by every assignment that returns: if each
    object of the heap has a payload whenever its flag is set, the same
    holds after a copy or move assignment between two of its objects that
    does not end in an exception. *)
Theorem returning_assignment_keeps_I1 σ this m r :
  heap_wf σ → is_Some (σ !! this) → is_Some (σ !! m) →
  ((copy_assign this m σ).1 = Ret r → heap_wf (copy_assign this m σ).2) ∧
  ((move_assign this m σ).1 = Ret r → heap_wf (move_assign this m σ).2).
Proof.
  intros Hσ [dst Hd] [src Hs].
  destruct (decide (this = m)) as [->|Hne].
  { by rewrite copy_assign_self, move_assign_self. }
  assert (wf dst) as Hwfd by exact (Hσ _ _ Hd).
  rewrite (copy_assign_eval σ this m dst src),
          (move_assign_eval σ this m dst src) by done.
  assert (∀ c b, b = false ∨ (∃ a, c = live a) →
            heap_wf (<[this:=Maybe c b]> σ)) as Hins.
  { intros c b Hcb. apply map_Forall_insert_2; [|done].
    intros Hb. simpl in *. destruct Hcb as [->|Hc]; done. }
  destruct src as [c [|]]; simpl in *.
  - split.
    + destruct (construct_from_cell c) as [a'|e|]; [|done..]. intros _.
      rewrite !insert_insert_eq. apply Hins. right. by eexists.
    + destruct (construct_from_cell_rv c) as [[a'|e|] cell]; [|done..].
      simpl. intros _. intros p o Hp.
      destruct (decide (p = m)) as [->|Hpm].
      { rewrite lookup_insert_eq in Hp. simplify_eq. apply wf_absent. }
      rewrite lookup_insert_ne in Hp by done.
      destruct (decide (p = this)) as [->|Hpt].
      { rewrite lookup_insert_eq in Hp. simplify_eq. apply wf_present. }
      rewrite !lookup_insert_ne in Hp by done. exact (Hσ _ _ Hp).
  - split; intros _; rewrite !insert_insert_eq; apply Hins; by left.
Qed.


(** X18: an assignment between two distinct objects whose payload
    construction throws: the exception leaves the operator, and the
    destination has lost its old payload and carries a set flag.  After a
    failed copy assignment the source is as it was; after a failed move
    assignment the source still has its flag set, over the storage as the
    constructor left it. *)
Theorem failed_assignment_state σ this m dst src e :
  this ≠ m → σ !! this = Some dst → wf dst →
  σ !! m = Some src → isValid src = true →
  (construct_from_cell (val src) = Throw e →
     (copy_assign this m σ).1 = Throw e ∧
     (copy_assign this m σ).2 !! m = Some src ∧
     (copy_assign this m σ).2 !! this
       = Some (Maybe (if isValid dst then raw else val dst) true)) ∧
  ((construct_from_cell_rv (val src)).1 = Throw e →
     (move_assign this m σ).1 = Throw e ∧
     (move_assign this m σ).2 !! m
       = Some (Maybe (construct_from_cell_rv (val src)).2 true) ∧
     (move_assign this m σ).2 !! this
       = Some (Maybe (if isValid dst then raw else val dst) true)).
Proof.
  intros Hne Hd Hwf Hs Hv.
  rewrite (copy_assign_eval σ this m dst src),
          (move_assign_eval σ this m dst src) by done.
  rewrite Hv. split; intros ->; simpl.
  - split_and!; [done| |apply lookup_insert_eq].
    by rewrite !lookup_insert_ne.
  - split_and!; [done|apply lookup_insert_eq|].
    rewrite lookup_insert_ne by done. apply lookup_insert_eq.
Qed.

End heap_eval.

Lemma two_objects_wf : heap_wf two_objects.
Proof.
  unfold two_objects. apply map_Forall_insert_2; [apply wf_present|].
  apply map_Forall_singleton, wf_present.
Qed.

Lemma returning_assignment_keeps_I1_witness :
  heap_wf two_objects ∧
  ((copy_assign (H:=from_anything) 1%positive 2%positive two_objects).1
     = Ret 1%positive →
   heap_wf (copy_assign (H:=from_anything) 1%positive 2%positive
              two_objects).2) ∧
  ((move_assign (H:=from_anything) 1%positive 2%positive two_objects).1
     = Ret 1%positive →
   heap_wf (move_assign (H:=from_anything) 1%positive 2%positive
              two_objects).2).
Proof.
  split; [apply two_objects_wf|].
  apply (returning_assignment_keeps_I1 (H:=from_anything)
           two_objects 1%positive 2%positive);
    [apply two_objects_wf|by eexists..].
Defined.


Lemma failed_assignment_state_witness :
  (copy_assign (H:=fragile) 1%positive 2%positive two_objects).1
    = Throw (thrown 0) ∧
  (copy_assign (H:=fragile) 1%positive 2%positive two_objects).2 !! 2%positive
    = Some (Maybe (live 20%Z) true) ∧
  (copy_assign (H:=fragile) 1%positive 2%positive two_objects).2 !! 1%positive
    = Some (Maybe raw true).
Proof.
  apply (failed_assignment_state (H:=fragile) two_objects 1%positive 2%positive
           (Maybe (live 10%Z) true) (Maybe (live 20%Z) true) (thrown 0));
    [done|done|apply wf_present|done|done|done].
Defined.

(** ** The combinators of maybe *)

Lemma quiet_bind {X Y} (r : result X) (k : X → result Y) :
  quiet r → (∀ x, quiet (k x)) → quiet (r ≫= k).
Proof. intros Hr Hk. destruct r as [x|[]|]; simpl in *; auto. Qed.

(** X10: the combinators never signal an absent access and never read
    storage that holds no payload: on maybes that satisfy I1, with payload
    constructors and callbacks that return or throw an exception of their
    own, the copy constructor, [map], [bind] and the monoid's [append]
    return or pass on such an exception. *)
Theorem combinators_never_signal_absent_access {A B}
    `{Constructible A} `{Constructible B} `{monoid A}
    (f : A → result B) (k : A → result (maybe B)) (m1 m2 : maybe A) :
  wf m1 → wf m2 →
  (∀ a : A, quiet (copy_construct a) ∧ quiet (move_construct a)) →
  (∀ b : B, quiet (move_construct b)) →
  (∀ x, quiet (f x) ∧ quiet (k x)) →
  quiet (copy_ctor m1) ∧ quiet (monad_maybe.map f m1) ∧
  quiet (monad_maybe.bind m1 k) ∧ quiet (monoid_maybe.append m1 m2).
Proof.
  intros Hwf1 Hwf2 HA HB Hfk.
  unfold monad_maybe.map, monad_maybe.bind, monoid_maybe.append, copy_ctor,
    value_rv, maybe_of_move.
  wf_cases; cbn; split_and!; try done;
    repeat first [ apply quiet_bind; [|intros ?] | apply HA | apply HB
                 | apply Hfk | exact I ].
Qed.

Lemma combinators_never_signal_absent_access_witness :
  quiet (copy_ctor (Maybe (live 1%Z) true)) ∧
  quiet (monad_maybe.map (λ x, Throw (thrown 3)) (Maybe (live 1%Z) true)
           : result (maybe Z)) ∧
  quiet (monad_maybe.bind (Maybe (live 1%Z) true)
           (λ x, Ret (nothing (A:=Z)))) ∧
  quiet (monoid_maybe.append (Maybe (live 1%Z) true) nothing).
Proof.
  apply (combinators_never_signal_absent_access (A:=Z) (B:=Z));
    [apply wf_present|apply wf_absent|done..].
Defined.

(** X11: the table of [append]: on maybes that satisfy I1, with payload
    constructors that do not throw, [append] returns a well-formed maybe
    that is present exactly when one of the arguments is; two present
    arguments give the [append] of their payloads, a present and an absent
    one the payload of the present one, and two absent ones the maybe that
    default construction gives. *)
Theorem append_table {A} `{Constructible A} `{!NoThrow A} `{monoid A}
    (m1 m2 : maybe A) :
  wf m1 → wf m2 →
  ∃ r, monoid_maybe.append m1 m2 = Ret r ∧ wf r ∧
       isValid r = isValid m1 || isValid m2 ∧
       (∀ x y, isValid m1 = true → val m1 = live x →
               isValid m2 = true → val m2 = live y →
               r = Maybe (live (monoid_append x y)) true) ∧
       (∀ x, isValid m1 = true → val m1 = live x → isValid m2 = false →
             r = Maybe (live x) true) ∧
       (∀ y, isValid m1 = false → isValid m2 = true → val m2 = live y →
             r = Maybe (live y) true) ∧
       (isValid m1 = false → isValid m2 = false → r = nothing).
Proof.
  intros Hwf1 Hwf2.
  unfold monoid_maybe.append, copy_ctor, maybe_of_move.
  wf_cases; cbn; rewrite ?copy_nothrow, ?move_nothrow; cbn;
    eexists; (split; [reflexivity|]);
    (split; [first [apply wf_present|apply wf_absent]|]);
    split_and!; try done; intros; by simplify_eq.
Qed.

Lemma append_table_witness :
  ∃ r, monoid_maybe.append (Maybe (live 2%Z) true) (Maybe (live 3%Z) true)
         = Ret r ∧ wf r ∧ isValid r = true ∧
       r = Maybe (live 5%Z) true.
Proof.
  destruct (append_table (Maybe (live 2%Z) true) (Maybe (live 3%Z) true)
              (wf_present _) (wf_present _))
    as (r & Hr & Hwf & Hv & Hpp & _).
  exists r. split_and!; [done|done|done|].
  by apply (Hpp 2%Z 3%Z).
Defined.

Section functor_maybe.
Import monad_maybe.

(** X12: [map] over maybe satisfies the functor laws.  Mapping the identity
    returns a maybe with the flag and payload of [m], for every [m] that
    satisfies I1; mapping a composition equals mapping twice, as an equation
    between outcomes. *)
Theorem map_functor_laws {A B C} `{Constructible A} `{!NoThrow A}
    `{Constructible B} `{!NoThrow B} `{Constructible C} `{!NoThrow C}
    (f : A → B) (g : B → C) (m : maybe A) :
  wf m →
  (∃ r, map (λ x, Ret x) m = Ret r ∧ r ≡ m ∧
        (isValid m = true ∨ val m = raw → r = m)) ∧
  map (λ x, Ret (g (f x))) m
  = (map (λ x, Ret (f x)) m ≫= map (λ y, Ret (g y))).
Proof.
  intros Hwf. unfold map, value_rv, maybe_of_move. split.
  - wf_cases; cbn; rewrite ?move_nothrow; eexists;
      (split; [reflexivity|]); (split; [by split|]); by intros [?|?].
  - destruct m as [[|a] [|]]; cbn; rewrite ?move_nothrow; cbn;
      rewrite ?move_nothrow; done.
Qed.

Lemma map_functor_laws_witness :
  (∃ r, map (λ x, Ret x) (Maybe (live 41%Z) true) = Ret r ∧
        r ≡ Maybe (live 41%Z) true ∧
        (isValid (Maybe (live 41%Z) true) = true
         ∨ val (Maybe (live 41%Z) true) = raw → r = Maybe (live 41%Z) true)) ∧
  map (λ x, Ret (Z.succ (Z.double x))) (Maybe (live 41%Z) true)
  = (map (λ x, Ret (Z.double x)) (Maybe (live 41%Z) true)
     ≫= map (λ y, Ret (Z.succ y))).
Proof.
  apply (map_functor_laws Z.double Z.succ (Maybe (live 41%Z) true)).
  apply wf_present.
Defined.

(** X13: [map] is [bind] followed by [pure]: for every callable and every
    maybe, when the payload's constructors do not throw. *)
Theorem map_is_bind_then_pure {A B} `{Constructible B} `{!NoThrow B}
    (f : A → result B) (m : maybe A) :
  map f m = bind m (λ x, f x ≫= pure).
Proof.
  unfold map, bind, pure, value, value_rv, maybe_of_copy, maybe_of_move.
  destruct (operator_bool m); [|done].
  destruct (deref m) as [x| |]; [|done..]. simpl.
  destruct (f x) as [y| |]; [|done..]. simpl.
  by rewrite copy_nothrow, move_nothrow.
Qed.

Lemma map_is_bind_then_pure_witness :
  map (λ x, Ret (Z.succ x)) (Maybe (live 41%Z) true)
  = bind (Maybe (live 41%Z) true) (λ x, Ret (Z.succ x) ≫= pure).
Proof. apply (map_is_bind_then_pure (B:=Z)). Defined.

End functor_maybe.

(** * Further properties of tuple.h *)

Section tuple_more.
Import tuple.

Lemma hlist_tnil (x : hlist tnil) : x = hnil.
Proof.
  refine (match x in hlist Us
                return match Us return hlist Us → Prop with
                       | tnil => λ x, x = hnil
                       | tcons _ _ => λ _, True
                       end x
          with hnil => eq_refl | hcons _ _ => I end).
Qed.

Lemma hlist_eta {T Ts} (x : hlist (tcons T Ts)) :
  x = hcons (hhead x) (htail x).
Proof.
  refine (match x in hlist Us
                return match Us return hlist Us → Prop with
                       | tnil => λ _, True
                       | tcons _ _ => λ x, x = hcons (hhead x) (htail x)
                       end x
          with hnil => I | hcons _ _ => eq_refl end).
Qed.

Lemma splice_0 {Ts} (upd h : hlist Ts) : splice 0 upd h = h.
Proof. by destruct Ts. Qed.

Lemma splice_all {Ts} (k : nat) (upd h : hlist Ts) :
  (sizeof Ts ≤ N.of_nat k)%N → splice k upd h = upd.
Proof.
  revert k. induction Ts as [|T Ts IH]; intros k Hk.
  - by rewrite (hlist_tnil upd), (hlist_tnil h).
  - cbn [sizeof] in Hk. destruct k as [|k]; [lia|]. cbn [splice].
    rewrite IH by lia. symmetry. apply hlist_eta.
Qed.

Lemma size_t_pred_pos (n : N) :
  (0 < n < 2 ^ 64)%N → size_t_pred n = N.pred n.
Proof.
  intros Hn. unfold size_t_pred.
  replace (n + 2 ^ 64 - 1)%N with (N.pred n + 1 * 2 ^ 64)%N by lia.
  rewrite N.Div0.mod_add. apply N.mod_small. lia.
Qed.

Lemma size_t_pred_0 : size_t_pred 0 = (2 ^ 64 - 1)%N.
Proof. reflexivity. Qed.

(** The template argument that [functor<std::tuple>::map] and
    [monoid<std::tuple<Ts...>>::append] compute from a pack of [n] types,
    for a tuple of [size] elements. *)
Lemma tup_size_t_pred (n size : N) :
  (n < 2 ^ 64)%N → (n ≤ size < 2 ^ 64)%N →
  tup (size_t_pred n) size
  = if decide (n = 0%N) then None else Some (N.to_nat (N.pred n)).
Proof.
  intros Hn Hs. unfold tup. destruct (decide (n = 0%N)) as [->|Hn0].
  - rewrite size_t_pred_0. apply decide_False. lia.
  - rewrite size_t_pred_pos by lia. apply decide_True. lia.
Qed.

Lemma app_get_splice {Ts} (i : nat) (cs : tuple_monoid.allCarets Ts)
    (r0 t2 : hlist Ts) :
  (N.of_nat i < sizeof Ts)%N →
  tuple_monoid.app_get (N.of_nat i) cs (splice i (zip_caret cs r0 t2) r0) t2
  = Some (splice (S i) (zip_caret cs r0 t2) r0).
Proof.
  revert i. induction Ts as [|T Ts IH]; intros i Hi; cbn [sizeof] in Hi.
  - lia.
  - destruct i as [|i].
    + cbn. by rewrite !splice_0.
    + cbn [tuple_monoid.app_get splice zip_caret hhead htail].
      rewrite decide_False by lia.
      rewrite Nat2N.inj_succ, N.pred_succ, IH by lia. done.
Qed.

Lemma tup_app_splice {Ts} (n : nat) (cs : tuple_monoid.allCarets Ts)
    (r0 t2 : hlist Ts) :
  (N.of_nat n < sizeof Ts)%N →
  tuple_monoid.tup_app n cs r0 t2
  = Some (splice (S n) (zip_caret cs r0 t2) r0).
Proof.
  induction n as [|n IH]; intros Hn.
  - cbn [tuple_monoid.tup_app].
    rewrite <- (app_get_splice 0) by done. by rewrite splice_0.
  - cbn [tuple_monoid.tup_app]. rewrite IH by lia. cbn [mbind option_bind].
    by apply app_get_splice.
Qed.

(** [append] on tuples, evaluated. *)
Lemma tuple_append_zip {Ts} (ms : allMonoids Ts)
    (cs : tuple_monoid.allCarets Ts) (t1 t2 : hlist Ts) :
  (sizeof Ts < 2 ^ 64)%N →
  tuple_monoid.append ms cs t1 t2
  = if decide (sizeof Ts = 0%N) then None else Some (zip_caret cs t1 t2).
Proof.
  intros Hs. unfold tuple_monoid.append.
  rewrite tup_size_t_pred by lia.
  destruct (decide (sizeof Ts = 0%N)) as [|Hn]; [done|].
  cbn [mbind option_bind]. rewrite tup_app_splice by lia.
  f_equal. apply splice_all. lia.
Qed.

(** X14: for a tuple type of one or more fields,
    [monoid<std::tuple<Ts...>>::append] combines the two tuples field by
    field with the [^] of each field type, keeping the field order: on
    built-in integer fields that is the bitwise exclusive or, whatever
    monoid the field type was given.  For the empty tuple type,
    [sizeof...(Ts)-1] wraps and the operation does not instantiate. *)
Theorem tuple_append_is_fieldwise {Ts} (ms : allMonoids Ts)
    (cs : tuple_monoid.allCarets Ts) (t1 t2 : hlist Ts) :
  (sizeof Ts < 2 ^ 64)%N →
  tuple_monoid.append ms cs t1 t2
  = if decide (sizeof Ts = 0%N) then None else Some (zip_caret cs t1 t2).
Proof. apply tuple_append_zip. Qed.

Lemma zip_caret_append {Ts} (ms : allMonoids Ts)
    (cs : tuple_monoid.allCarets Ts) (r s : hlist Ts) :
  carets_are_appends ms cs → zip_caret cs r s = zip_append ms r s.
Proof.
  induction Ts as [|T Ts IH]; intros Hc; [done|].
  destruct Hc as [HT Hc]. cbn. by rewrite HT, (IH (snd ms)).
Qed.

Lemma zip_append_ids_l {Ts} (ms : allMonoids Ts) (t : hlist Ts) :
  allLaws ms → zip_append ms (ids ms) t = t.
Proof.
  induction Ts as [|T Ts IH]; intros Hl.
  - by rewrite (hlist_tnil t).
  - destruct Hl as [HT Hl]. cbn. rewrite IH by done.
    rewrite (@monoid_left_id T _ HT). symmetry. apply hlist_eta.
Qed.

Lemma zip_append_ids_r {Ts} (ms : allMonoids Ts) (t : hlist Ts) :
  allLaws ms → zip_append ms t (ids ms) = t.
Proof.
  induction Ts as [|T Ts IH]; intros Hl.
  - by rewrite (hlist_tnil t).
  - destruct Hl as [HT Hl]. cbn. rewrite IH by done.
    rewrite (@monoid_right_id T _ HT). symmetry. apply hlist_eta.
Qed.

Lemma zip_append_assoc {Ts} (ms : allMonoids Ts) (x y z : hlist Ts) :
  allLaws ms →
  zip_append ms (zip_append ms x y) z = zip_append ms x (zip_append ms y z).
Proof.
  induction Ts as [|T Ts IH]; intros Hl; [done|].
  destruct Hl as [HT Hl]. cbn. rewrite IH by done.
  by rewrite (@monoid_assoc T _ HT).
Qed.

(** X15: when every field type is a lawful monoid and the [^] of every
    field type is that monoid's [append], tuples of one or more fields form
    a monoid under [id] and [append]: [id()] is a left and a right identity,
    and [append] is associative. *)
Theorem tuple_monoid_laws {Ts} (ms : allMonoids Ts)
    (cs : tuple_monoid.allCarets Ts) (x y z : hlist Ts) :
  allLaws ms → carets_are_appends ms cs → (0 < sizeof Ts < 2 ^ 64)%N →
  tuple_monoid.append ms cs (tuple_monoid.id ms) x = Some x ∧
  tuple_monoid.append ms cs x (tuple_monoid.id ms) = Some x ∧
  (tuple_monoid.append ms cs x y ≫= λ r, tuple_monoid.append ms cs r z)
  = (tuple_monoid.append ms cs y z ≫= λ r, tuple_monoid.append ms cs x r).
Proof.
  intros Hl Hc Hs. unfold tuple_monoid.id.
  rewrite !tuple_append_zip by lia. rewrite !decide_False by lia.
  cbn [mbind option_bind].
  rewrite !tuple_append_zip by lia. rewrite !decide_False by lia.
  rewrite !(zip_caret_append ms cs) by done.
  by rewrite zip_append_ids_l, zip_append_ids_r, zip_append_assoc.
Qed.

Lemma assign_get_splice {Ts} (i : nat) (o h : hlist Ts) :
  (N.of_nat i < sizeof Ts)%N →
  assign_get (N.of_nat i) (splice i o h) o = Some (splice (S i) o h).
Proof.
  revert i. induction Ts as [|T Ts IH]; intros i Hi; cbn [sizeof] in Hi.
  - lia.
  - destruct i as [|i].
    + cbn. by rewrite !splice_0.
    + cbn [assign_get splice hhead htail].
      rewrite decide_False by lia.
      rewrite Nat2N.inj_succ, N.pred_succ, IH by lia. done.
Qed.

Lemma tup_fmap_splice {A Ts} (n : nat) (f : A → A)
    (ret o : hlist (tcons A Ts)) :
  (N.of_nat n < sizeof (tcons A Ts))%N →
  tup_fmap n f ret o
  = Some (splice (S n) (hcons (f (hhead o)) (htail o)) ret).
Proof.
  induction n as [|n IH]; intros Hn.
  - cbn. by rewrite splice_0.
  - cbn [tup_fmap]. rewrite IH by lia. cbn [mbind option_bind].
    cbn [sizeof] in Hn.
    cbn [assign_get splice hhead htail]. rewrite decide_False by lia.
    rewrite Nat2N.inj_succ, N.pred_succ, assign_get_splice by lia. done.
Qed.

(** X16: the general behaviour of [functor<std::tuple>::map] on a tuple
    [(a, r1, ..., rk)]: for [k = 0] it does not instantiate; for [k ≥ 1] it
    returns the value-initialised tuple whatever [f] and the argument are,
    and the argument afterwards holds [f] of the value-initialised head,
    value-initialised fields at positions 1 to [k-1], and its own last
    field. *)
Theorem functor_map_general {A Ts} (ds : allDefault (tcons A Ts))
    (f : A → A) (t : hlist (tcons A Ts)) :
  (sizeof (tcons A Ts) < 2 ^ 64)%N →
  functor_map ds f t
  = if decide (sizeof Ts = 0%N) then None
    else Some (default_ctor ds,
               splice (N.to_nat (sizeof Ts))
                 (hcons (f (fst ds)) (default_ctor (snd ds))) t).
Proof.
  intros Hs. cbn [sizeof] in Hs.
  unfold functor_map. cbn [sizeof]. rewrite tup_size_t_pred by lia.
  destruct (decide (sizeof Ts = 0%N)) as [|Hn]; [done|].
  cbn [mbind option_bind]. rewrite tup_fmap_splice by (cbn [sizeof]; lia).
  cbn [mbind option_bind default_ctor hhead htail].
  by replace (S (N.to_nat (N.pred (sizeof Ts))))
       with (N.to_nat (sizeof Ts)) by lia.
Qed.

Lemma applicative_apply_zip {A B Ts} (ms : allMonoids Ts)
    (a : A) (f : A → B) (rs ss : hlist Ts) :
  applicative_apply ms (hcons f rs) (hcons a ss)
  = Some (existT (tcons B Ts) (hcons (f a) (zip_append ms rs ss))).
Proof.
  unfold applicative_apply, applicative_implementation, apply_on_first.
  rewrite (expand_ext _ (λ i, tail_append_get (N.pred i) ms rs ss)).
  - rewrite expand_tail_append. reflexivity.
  - eapply Forall_impl; [apply gen_seq_pos|]. intros i Hi. simpl.
    unfold append_get. by rewrite decide_False.
Qed.

(** X17: when every tail type is a lawful monoid, the applicative of tuples
    satisfies the identity, homomorphism and interchange laws:
    [apply(pure(id), v) = v], [apply(pure(f), pure(x)) = pure(f(x))] and
    [apply(u, pure(y)) = apply(pure(g → g(y)), u)]. *)
Theorem applicative_laws_of_tuples {A B Ts} (ms : allMonoids Ts)
    (f : A → B) (x : A) (v : hlist (tcons A Ts))
    (u : hlist (tcons (A → B) Ts)) :
  allLaws ms →
  applicative_apply ms (applicative_pure ms (λ a : A, a)) v
    = Some (existT _ v) ∧
  applicative_apply ms (applicative_pure ms f) (applicative_pure ms x)
    = Some (existT _ (applicative_pure ms (f x))) ∧
  applicative_apply ms u (applicative_pure ms x)
    = applicative_apply ms (applicative_pure ms (λ g : A → B, g x)) u.
Proof.
  intros Hl. unfold applicative_pure.
  rewrite (hlist_eta v), (hlist_eta u), !applicative_apply_zip.
  by rewrite !zip_append_ids_l, !zip_append_ids_r.
Qed.

End tuple_more.

Lemma Z_pair_laws : allLaws Z_pair_monoids.
Proof. split; [apply Z_monoid_laws|]. split; [apply Z_monoid_laws|done]. Qed.

Lemma Z_xor_monoid_laws : @MonoidLaws Z Z_xor_monoid.
Proof.
  split; simpl.
  - apply Z.lxor_0_l.
  - apply Z.lxor_0_r.
  - apply Z.lxor_assoc.
Qed.

Lemma Z_pair_xor_laws : allLaws Z_pair_xor_monoids.
Proof.
  split; [apply Z_xor_monoid_laws|]. split; [apply Z_xor_monoid_laws|done].
Qed.

Lemma Z_pair_carets_are_xor :
  carets_are_appends Z_pair_xor_monoids Z_pair_carets.
Proof. split; [done|]. split; done. Qed.

(** On a [std::tuple<int,int>] with the monoid of addition on both fields,
    [append] of (1, 2) and (1, 2) is (0, 0). *)
Lemma tuple_append_is_fieldwise_witness :
  tuple_monoid.append Z_pair_monoids Z_pair_carets
    (hcons 1%Z (hcons 2%Z hnil)) (hcons 1%Z (hcons 2%Z hnil))
  = Some (hcons 0%Z (hcons 0%Z hnil)).
Proof.
  rewrite (tuple_append_is_fieldwise Z_pair_monoids Z_pair_carets)
    by (by vm_compute).
  reflexivity.
Defined.

Lemma tuple_monoid_laws_witness :
  tuple_monoid.append Z_pair_xor_monoids Z_pair_carets
    (tuple_monoid.id Z_pair_xor_monoids) (hcons 1%Z (hcons 2%Z hnil))
  = Some (hcons 1%Z (hcons 2%Z hnil)).
Proof.
  apply (tuple_monoid_laws Z_pair_xor_monoids Z_pair_carets
           (hcons 1%Z (hcons 2%Z hnil)) (hcons 1%Z (hcons 2%Z hnil))
           (hcons 1%Z (hcons 2%Z hnil)) Z_pair_xor_laws
           Z_pair_carets_are_xor).
  by vm_compute.
Defined.

Lemma functor_map_general_witness :
  tuple.functor_map (A:=Z) (Ts:=tcons Z (tcons Z tnil))
    (Z_default, (Z_default, (Z_default, ()))) Z.succ
    (hcons 41%Z (hcons 5%Z (hcons 7%Z hnil)))
  = Some (hcons 0%Z (hcons 0%Z (hcons 0%Z hnil)),
          hcons 1%Z (hcons 0%Z (hcons 7%Z hnil))).
Proof.
  rewrite (functor_map_general (A:=Z) (Ts:=tcons Z (tcons Z tnil)))
    by (by vm_compute).
  reflexivity.
Defined.

Lemma applicative_laws_of_tuples_witness :
  tuple.applicative_apply Z_pair_monoids
    (tuple.applicative_pure Z_pair_monoids Z.succ)
    (tuple.applicative_pure Z_pair_monoids 7%Z)
  = Some (existT _ (tuple.applicative_pure Z_pair_monoids 8%Z)).
Proof.
  apply (applicative_laws_of_tuples Z_pair_monoids Z.succ 7%Z
           (hcons 7%Z (hcons 1%Z (hcons 2%Z hnil)))
           (hcons Z.succ (hcons 1%Z (hcons 2%Z hnil))) Z_pair_laws).
Defined.

Lemma get_is_Some {Ts} (i : N) (t : hlist Ts) :
  (i < tuple.sizeof Ts)%N → is_Some (tuple.get i t).
Proof.
  revert i. induction t as [|T Ts x t IH]; intros i Hi;
    cbn [tuple.sizeof] in Hi; [lia|].
  cbn [tuple.get]. destruct (decide (i = 0%N)); [by eexists|].
  apply IH. lia.
Qed.

(** X19: whatever the size of the tuple, the free helper [apply] calls [f]
    with exactly two arguments, the first and the last element of the
    tuple, in that order. *)
Theorem apply_calls_with_first_and_last {R Ts} (f : tuple.callable R)
    (t : hlist Ts) :
  (0 < tuple.sizeof Ts < 2 ^ 64)%N →
  ∃ x y : tuple.dyn,
    tuple.get 0 t = Some x ∧
    tuple.get (N.pred (tuple.sizeof Ts)) t = Some y ∧
    tuple.apply f t = Some (f _ (hcons (projT2 x) (hcons (projT2 y) hnil))).
Proof.
  intros Hs.
  destruct (get_is_Some 0 t) as [x Hx]; [lia|].
  destruct (get_is_Some (N.pred (tuple.sizeof Ts)) t) as [y Hy]; [lia|].
  exists x, y. split_and!; [done|done|].
  unfold tuple.apply, tuple.tup_apply. rewrite size_t_pred_pos by lia.
  cbn [tuple.expand]. rewrite Hx, Hy. reflexivity.
Qed.

Lemma apply_calls_with_first_and_last_witness :
  ∃ x y : tuple.dyn,
    tuple.get 0 (hcons 1%Z (hcons 2%Z (hcons 3%Z hnil))) = Some x ∧
    tuple.get (N.pred 3) (hcons 1%Z (hcons 2%Z (hcons 3%Z hnil))) = Some y ∧
    tuple.apply count_args (hcons 1%Z (hcons 2%Z (hcons 3%Z hnil)))
    = Some (count_args _ (hcons (projT2 x) (hcons (projT2 y) hnil))).
Proof.
  apply (apply_calls_with_first_and_last count_args
           (hcons 1%Z (hcons 2%Z (hcons 3%Z hnil)))).
  by vm_compute.
Defined.
